(** * minicache: an in-process key/value cache with per-entry expiration

    A shallow embedding of [minicache.go] and the properties of its
    operations.  The map [minic.items] is a [gmap string Item]; [int64]
    values ([Item.Expiration], [time.Duration], Unix nanoseconds) are
    integers of [Z] with the two's-complement wrap-around written out;
    every reading of the wall clock ([time.Now()]) is an explicit argument
    of the function that takes it. *)

From Stdlib Require Import ZArith Lia.
From stdpp Require Import gmap strings list fin_maps.

Local Open Scope Z_scope.

(** ** 64-bit signed integers *)

Module int64.

Definition min : Z := - 2 ^ 63.
Definition max : Z := 2 ^ 63 - 1.

(** Two's-complement wrap-around of a mathematical integer into [int64]. *)
Definition wrap (z : Z) : Z := (z + 2 ^ 63) mod 2 ^ 64 - 2 ^ 63.

Definition in_range (z : Z) : Prop := min <= z <= max.

End int64.

(** ** The parts of Go's [time] package the cache calls

    [Duration] is an [int64] count of nanoseconds.  A wall-clock reading is
    represented by its [UnixNano()] value. *)

Module time.

Definition Duration : Type := Z.

(** [t.Add(d).UnixNano()] for a reading [t] whose own [UnixNano()] is [now]:
    the instant [now + d], returned as an [int64] (Go computes
    [sec * 1e9 + nsec] in [int64] arithmetic, so an instant after the year
    2262 wraps around). *)
Definition Add_UnixNano (now : Z) (d : Duration) : Z := int64.wrap (now + d).

Record Ticker : Type := { period : Duration }.

(** [time.NewTicker(d)]: "The duration d must be greater than zero; if not,
    NewTicker will panic."  [inl] carries the panic value. *)
Definition NewTicker (d : Duration) : string + Ticker :=
  if 0 <? d then inr {| period := d |}
  else inl "non-positive interval for NewTicker"%string.

End time.

(** ** Package minicache *)

Module minicache.

Definition NoExpiration : time.Duration := -1.
Definition defaultExpiration : time.Duration := 0.

(** Go's [error]: [None] is [nil], [Some msg] an error with that message. *)
Definition error : Type := option string.

Section Cache.

(** The dynamic type behind [interface{}]; [None] is the [nil] interface. *)
Context {V : Type}.

Definition iface : Type := option V.

Record Item : Type := {
  Object : iface;
  Expiration : Z
}.

(** [rwmtx] and [stopGc] carry no data; the lock discipline is modelled in
    [rwmutex] below, the stop channel by the [stop] event of [gcLoop]. *)
Record Minicache : Type := {
  minic_defaultExpiration : time.Duration;
  items : gmap string Item;
  gcInterval : time.Duration
}.

Definition with_items (minic : Minicache) (m : gmap string Item) : Minicache :=
  {| minic_defaultExpiration := minic_defaultExpiration minic;
     items := m;
     gcInterval := gcInterval minic |}.

(** [now] is the reading of [time.Now().UnixNano()], taken only when
    [Expiration] is not zero. *)
Definition IsExpired (now : Z) (item : Item) : bool :=
  if Expiration item =? 0 then false
  else now >? Expiration item.

Definition delete (k : string) (minic : Minicache) : Minicache :=
  with_items minic (base.delete k (items minic)).

(** One iteration of the [range] loop of [DeleteExpired]. *)
Definition DeleteExpired_body (now : Z) (minic : Minicache)
    (kv : string * Item) : Minicache :=
  let '(k, v) := kv in
  if (Expiration v >? 0) && (now >? Expiration v) then delete k minic
  else minic.

(** The loop over the entries in the order [l] in which [range] yields them.
    Only the entry being visited is ever deleted, so every entry is visited
    with the value it had when the loop began. *)
Definition DeleteExpired_range (now : Z) (l : list (string * Item))
    (minic : Minicache) : Minicache :=
  foldl (DeleteExpired_body now) minic l.

(** [now] is sampled once, before the lock is taken. *)
Definition DeleteExpired (now : Z) (minic : Minicache) : Minicache :=
  DeleteExpired_range now (map_to_list (items minic)) minic.

Definition Delete (k : string) (minic : Minicache) : Minicache :=
  delete k minic.

(** The expiration [e] computed at the head of [Set] and [set]; [now] is
    read only when the resolved duration is positive. *)
Definition expiration_of (dflt : time.Duration) (now : Z) (d : time.Duration) : Z :=
  let d := if d =? defaultExpiration then dflt else d in
  if d >? 0 then time.Add_UnixNano now d else 0.

Definition Set_ (now : Z) (k : string) (v : iface) (d : time.Duration)
    (minic : Minicache) : Minicache :=
  let e := expiration_of (minic_defaultExpiration minic) now d in
  with_items minic (<[k := {| Object := v; Expiration := e |}]> (items minic)).

Definition set (now : Z) (k : string) (v : iface) (d : time.Duration)
    (minic : Minicache) : Minicache :=
  let e := expiration_of (minic_defaultExpiration minic) now d in
  with_items minic (<[k := {| Object := v; Expiration := e |}]> (items minic)).

Definition get (now : Z) (k : string) (minic : Minicache) : iface * bool :=
  match items minic !! k with
  | None => (None, false)
  | Some item => if IsExpired now item then (None, false) else (Object item, true)
  end.

Definition Errorf_already_exists (k : string) : string :=
  "Item " +:+ k +:+ " already exists".

Definition Errorf_does_not_exists (k : string) : string :=
  "Item " +:+ k +:+ " does not exists".

(** [now_get] is the clock reading inside [get], [now_set] the later one
    inside [set]. *)
Definition Add (now_get now_set : Z) (k : string) (v : iface)
    (d : time.Duration) (minic : Minicache) : error * Minicache :=
  let '(_, found) := get now_get k minic in
  if found then (Some (Errorf_already_exists k), minic)
  else (None, set now_set k v d minic).

Definition Get (now : Z) (k : string) (minic : Minicache) : iface * bool :=
  match items minic !! k with
  | None => (None, false)
  | Some item => if IsExpired now item then (None, false) else (Object item, true)
  end.

Definition Replace (now_get now_set : Z) (k : string) (v : iface)
    (d : time.Duration) (minic : Minicache) : error * Minicache :=
  let '(_, found) := get now_get k minic in
  if negb found then (Some (Errorf_does_not_exists k), minic)
  else (None, set now_set k v d minic).

(** One iteration of the merge loop of [Load]; [now_at k] is the clock
    reading of the [IsExpired] call made while key [k] is visited. *)
Definition Load_body (now_at : string -> Z) (minic : Minicache)
    (kv : string * Item) : Minicache :=
  let '(k, v) := kv in
  match items minic !! k with
  | None => with_items minic (<[k := v]> (items minic))
  | Some obj =>
      if IsExpired (now_at k) obj then with_items minic (<[k := v]> (items minic))
      else minic
  end.

Definition Load_range (now_at : string -> Z) (l : list (string * Item))
    (minic : Minicache) : Minicache :=
  foldl (Load_body now_at) minic l.

(** [gobDecode r] stands for [gob.NewDecoder(r).Decode(&items)] on the
    bytes of the reader: the decoded mapping, or the decoder's error. *)
Definition Load (gobDecode : list Byte.byte -> string + gmap string Item)
    (now_at : string -> Z) (r : list Byte.byte) (minic : Minicache)
    : error * Minicache :=
  match gobDecode r with
  | inl err => (Some err, minic)
  | inr decoded => (None, Load_range now_at (map_to_list decoded) minic)
  end.

Definition Count (minic : Minicache) : nat := size (items minic).

Definition Flush (minic : Minicache) : Minicache := with_items minic ∅.

(** *** The background loop

    A goroutine running [gcLoop] is either inside the [for]/[select] loop
    with its ticker, has returned, or has panicked.  The two channels of
    the [select] are the events. *)

Inductive goroutine : Type :=
| looping (ticker : time.Ticker)
| returned
| panicked (msg : string).

Inductive gc_event : Type :=
| tick (now : Z)      (* [<-ticker.C]; [now] is read by [DeleteExpired] *)
| stop.               (* [<-minic.stopGc] *)

(** Entry of [gcLoop]: the ticker is created before the loop. *)
Definition gcLoop_enter (minic : Minicache) : goroutine :=
  match time.NewTicker (gcInterval minic) with
  | inl msg => panicked msg
  | inr ticker => looping ticker
  end.

(** One round of the [select]. *)
Definition gcLoop_select (ev : gc_event) (st : goroutine * Minicache)
    : goroutine * Minicache :=
  match st with
  | (looping ticker, minic) =>
      match ev with
      | tick now => (looping ticker, DeleteExpired now minic)
      | stop => (returned, minic)
      end
  | _ => st
  end.

Definition gcLoop (evs : list gc_event) (minic : Minicache)
    : goroutine * Minicache :=
  foldl (fun st ev => gcLoop_select ev st) (gcLoop_enter minic, minic) evs.

(** The new cache together with the goroutine started by [go minic.gcLoop()]. *)
Definition NewMiniCache (defaultExpiration gcInterval : time.Duration)
    : Minicache * goroutine :=
  let minic := {| minic_defaultExpiration := defaultExpiration;
                  items := ∅;
                  gcInterval := gcInterval |} in
  (minic, gcLoop_enter minic).

(** [Stopgc]: the send on the unbuffered channel [stopGc] completes only
    when [gcLoop] receives it in its [select]; [None] when the goroutine is
    no longer in the loop, so that no receiver is left and the send never
    completes. *)
Definition Stopgc (st : goroutine * Minicache) : option (goroutine * Minicache) :=
  match st.1 with
  | looping _ => Some (gcLoop_select stop st)
  | _ => None
  end.

(** *** Writing a snapshot

    How [enc.Encode(&minic.items)] ends: it returns, with the bytes it
    wrote to the writer and its error, or it panics (an encoder method of a
    stored value may), with the bytes written so far. *)

Inductive encode_outcome : Type :=
| encoded (written : list Byte.byte) (err : error)
| encode_panics (written : list Byte.byte).

Definition Errorf_registering : string :=
  "Error registering item types with gob library".

(** [gobRegister_panics objs] tells whether the calls [gob.Register(v.Object)]
    of the [range] loop, made on [objs] in this order, panic;
    [gobEncode m] is the outcome of [enc.Encode] on the map.  The deferred
    [recover] turns a panic of either into the one error.  The result is the
    error returned and the bytes written to [w]. *)
Definition Save (gobRegister_panics : list iface → bool)
    (gobEncode : gmap string Item → encode_outcome) (minic : Minicache)
    : error * list Byte.byte :=
  if gobRegister_panics ((λ kv : string * Item, Object kv.2) <$> map_to_list (items minic))
  then (Some Errorf_registering, [])
  else match gobEncode (items minic) with
       | encoded written err => (err, written)
       | encode_panics written => (Some Errorf_registering, written)
       end.

End Cache.

Arguments Item : clear implicits.
Arguments Minicache : clear implicits.
Arguments iface : clear implicits.

End minicache.

(** ** The lock discipline of the methods

    Every method is a short sequence of calls on [minic.rwmtx] around its
    accesses to [minic.items].  [rwmutex] keeps that skeleton only, each
    call and each map access one atomic action, and interleaves the
    skeletons of concurrently running calls. *)

Module rwmutex.

(** [sync.RWMutex]: held by one writer, or by any number of readers. *)
Record RWMutex : Type := {
  writer : bool;
  readers : nat
}.

Definition unlocked : RWMutex := {| writer := false; readers := 0 |}.

Inductive action : Type :=
| Lock | Unlock | RLock | RUnlock
| read_items       (* a lookup, [range] or [len] of [minic.items] *)
| write_items.     (* an assignment to, or [delete] from, [minic.items] *)

(** The effect of an action on the mutex; [None] when the call cannot
    proceed now ([Lock] and [RLock] block) or at all (unlock of a mutex
    that is not locked). *)
Definition exec (a : action) (mu : RWMutex) : option RWMutex :=
  match a with
  | Lock =>
      if writer mu then None
      else match readers mu with
           | O => Some {| writer := true; readers := O |}
           | S _ => None
           end
  | Unlock =>
      if writer mu then Some {| writer := false; readers := readers mu |} else None
  | RLock =>
      if writer mu then None
      else Some {| writer := false; readers := S (readers mu) |}
  | RUnlock =>
      match readers mu with
      | O => None
      | S n => Some {| writer := writer mu; readers := n |}
      end
  | read_items | write_items => Some mu
  end.

(** A call of a method, with what decides the path it takes: [found] for
    [Add] and [Replace]; for each entry visited by a loop, whether the
    loop body writes. *)
Inductive call : Type :=
| Get
| Set_
| Add (found : bool)
| Replace (found : bool)
| Delete
| Count
| Flush
| Save
| Load (decoded : option (list bool))
| DeleteExpired (deletes : list bool).

Definition visit (writes : bool) : list action :=
  if writes then [read_items; write_items] else [read_items].

Definition skeleton (c : call) : list action :=
  match c with
  | Get => [RLock; read_items; RUnlock]
  | Set_ => [Lock; write_items; Unlock]
  | Add found =>
      if found then [Lock; read_items; Unlock]
      else [Lock; read_items; write_items; Unlock]
  | Replace found =>
      if negb found then [Lock; read_items; Unlock]
      else [Lock; read_items; write_items; Unlock]
  | Delete => [Lock; write_items; Unlock]
  | Count => [Lock; read_items; Unlock]
  | Flush => [RLock; write_items; RUnlock]
  | Save => [Lock; read_items; Unlock]
  | Load None => []
  | Load (Some merges) => Lock :: flat_map visit merges ++ [Unlock]
  | DeleteExpired deletes => Lock :: flat_map visit deletes ++ [Unlock]
  end.

Definition is_write (a : action) : bool :=
  match a with write_items => true | _ => false end.

Definition mutates (c : call) : bool := existsb is_write (skeleton c).

(** A call running alone from mutex state [mu]: does every write to the map
    happen while the write lock is held, and does the call run to its end? *)
Fixpoint writes_exclusively (mu : RWMutex) (acts : list action) : bool :=
  match acts with
  | [] => true
  | a :: acts' =>
      (if is_write a then writer mu else true)
      && match exec a mu with
         | Some mu' => writes_exclusively mu' acts'
         | None => false
         end
  end.

(** Concurrent callers: the mutex and what is left of each caller's skeleton. *)
Record pool : Type := {
  mu : RWMutex;
  threads : list (list action)
}.

Definition start (calls : list call) : pool :=
  {| mu := unlocked; threads := skeleton <$> calls |}.

Definition next (i : nat) (p : pool) : option action :=
  threads p !! i ≫= head.

(** Thread [i] performs its next action, if it has one and is not blocked. *)
Definition step (i : nat) (p : pool) : option pool :=
  match threads p !! i with
  | Some (a :: rest) =>
      match exec a (mu p) with
      | Some mu' => Some {| mu := mu'; threads := <[i := rest]> (threads p) |}
      | None => None
      end
  | _ => None
  end.

Fixpoint run (schedule : list nat) (p : pool) : option pool :=
  match schedule with
  | [] => Some p
  | i :: schedule' =>
      match step i p with
      | Some p' => run schedule' p'
      | None => None
      end
  end.

Definition accesses (a : action) : bool :=
  match a with read_items | write_items => true | _ => false end.

(** Two different threads are about to access the map, one of them writing. *)
Definition race (p : pool) : Prop :=
  ∃ i j a, i ≠ j ∧ next i p = Some write_items ∧ next j p = Some a ∧
           accesses a = true.

(** Where a caller stands, read off what is left of its skeleton: outside
    any critical section, inside one entered by [Lock], or inside one
    entered by [RLock] that only reads the map. *)
Fixpoint write_section (acts : list action) : bool :=
  match acts with
  | [] => false
  | a :: acts' =>
      match a, acts' with
      | Unlock, [] => true
      | _, _ => accesses a && write_section acts'
      end
  end.

Fixpoint read_section (acts : list action) : bool :=
  match acts with
  | [] => false
  | a :: acts' =>
      match a with
      | RUnlock => match acts' with [] => true | _ => false end
      | read_items => read_section acts'
      | _ => false
      end
  end.

Inductive phase : Type := idle | writing | reading | undisciplined.

Definition phase_of (acts : list action) : phase :=
  match acts with
  | [] => idle
  | Lock :: acts' => if write_section acts' then idle else undisciplined
  | RLock :: acts' => if read_section acts' then idle else undisciplined
  | _ =>
      if write_section acts then writing
      else if read_section acts then reading
      else undisciplined
  end.

Definition is_writing (acts : list action) : bool :=
  match phase_of acts with writing => true | _ => false end.

Definition is_reading (acts : list action) : bool :=
  match phase_of acts with reading => true | _ => false end.

Definition count (f : list action → bool) (ts : list (list action)) : nat :=
  length (List.filter f ts).

(** The mutex state agrees with where the callers stand. *)
Definition consistent (p : pool) : Prop :=
  Forall (λ acts, phase_of acts ≠ undisciplined) (threads p) ∧
  count is_writing (threads p) = (if writer (mu p) then 1 else 0)%nat ∧
  count is_reading (threads p) = readers (mu p) ∧
  (writer (mu p) = true → readers (mu p) = O).

End rwmutex.

Import minicache.

(** ** Vocabulary of the specification *)

Section Vocabulary.

Context {V : Type}.

(** "Live": the key holds an entry that is not expired at [now]. *)
Definition live (now : Z) (k : string) (minic : Minicache V) : Prop :=
  ∃ item, items minic !! k = Some item ∧ IsExpired now item = false.

(** What the sweep tests: a strictly positive expiration strictly before [now]. *)
Definition sweepable (now : Z) (item : Item V) : bool :=
  (Expiration item >? 0) && (now >? Expiration item).

(** The entry resulting from the merge of [Load] for one key. *)
Definition merged (now : Z) (current decoded : option (Item V)) : option (Item V) :=
  match decoded with
  | None => current
  | Some v =>
      match current with
      | None => Some v
      | Some obj => if IsExpired now obj then Some v else Some obj
      end
  end.

End Vocabulary.

(** ** A cache to run the operations on

    As the example program builds it: a default ttl of half an hour, a
    sweep every three seconds; the clock starts at [t0]. *)

Module scenario.

Definition second : time.Duration := 1000000000.
Definition t0 : Z := 1700000000 * second.
Definition fresh : Minicache nat :=
  (NewMiniCache (1800 * second) (3 * second)).1.

(** The cache after [Set("x", 1, 2s)] at [t0]. *)
Definition with_x : Minicache nat := Set_ t0 "x" (Some 1%nat) (2 * second) fresh.

(** A one-entry snapshot, and a decoder that returns it for any stream
    but the empty one. *)
Definition snapshot : gmap string (Item nat) :=
  {[ "y"%string := {| Object := Some 2%nat; Expiration := 0 |} ]}.

Definition decoder (r : list Byte.byte) : string + gmap string (Item nat) :=
  match r with
  | [] => inl "EOF"%string
  | _ => inr snapshot
  end.

(** Three callers, the first of which has taken the write lock. *)
Definition three_callers : rwmutex.pool :=
  {| rwmutex.mu := {| rwmutex.writer := true; rwmutex.readers := O |};
     rwmutex.threads :=
       [[rwmutex.write_items; rwmutex.Unlock];
        [rwmutex.Lock; rwmutex.read_items; rwmutex.write_items; rwmutex.Unlock];
        [rwmutex.RLock; rwmutex.read_items; rwmutex.RUnlock]] |}.

End scenario.

(** ** Arithmetic of [int64] *)

Lemma int64_wrap_in_range (z : Z) : int64.in_range z → int64.wrap z = z.
Proof.
  unfold int64.in_range, int64.wrap, int64.min, int64.max. intros Hz.
  rewrite Z.mod_small; lia.
Qed.

Lemma int64_wrap_overflow (z : Z) :
  int64.max < z < 2 ^ 64 → int64.wrap z = z - 2 ^ 64.
Proof.
  unfold int64.wrap, int64.max. intros Hz.
  replace (z + 2 ^ 63) with ((z - 2 ^ 63) + 1 * 2 ^ 64) by lia.
  rewrite Z.mod_add by lia. rewrite Z.mod_small; lia.
Qed.

(** ** Expiration of a single entry *)

Section Expiration.

Context {V : Type}.
Implicit Types (item : Item V) (minic : Minicache V) (v : iface V).

Lemma IsExpired_never now item : Expiration item = 0 → IsExpired now item = false.
Proof. unfold IsExpired. intros ->. reflexivity. Qed.

Lemma IsExpired_false_iff now item :
  IsExpired now item = false ↔ Expiration item = 0 ∨ now <= Expiration item.
Proof.
  unfold IsExpired. destruct (Z.eqb_spec (Expiration item) 0) as [E|E].
  - split; auto.
  - rewrite Z.gtb_ltb, Z.ltb_ge. split; [auto | intros [?|?]; [contradiction | assumption]].
Qed.

Lemma IsExpired_true_iff now item :
  IsExpired now item = true ↔ Expiration item ≠ 0 ∧ Expiration item < now.
Proof.
  unfold IsExpired. destruct (Z.eqb_spec (Expiration item) 0) as [E|E].
  - split; [discriminate | intros [? _]; contradiction].
  - rewrite Z.gtb_ltb, Z.ltb_lt. split; [auto | intros [_ ?]; assumption].
Qed.

Lemma Get_get now k minic : Get now k minic = get now k minic.
Proof. reflexivity. Qed.

Lemma Set_set now k v d minic : Set_ now k v d minic = set now k v d minic.
Proof. reflexivity. Qed.

Lemma live_dec now k minic : {live now k minic} + {¬ live now k minic}.
Proof.
  unfold live. destruct (items minic !! k) as [item|] eqn:Hk.
  - destruct (IsExpired now item) eqn:He.
    + right. intros (item' & [= <-] & He'). congruence.
    + left. eauto.
  - right. intros (item' & [=] & _).
Qed.

Lemma get_found_iff now k minic : (get now k minic).2 = true ↔ live now k minic.
Proof.
  unfold get, live. destruct (items minic !! k) as [item|] eqn:Hk; simpl.
  - destruct (IsExpired now item) eqn:He; simpl; split; eauto; try discriminate.
    intros (item' & [= <-] & He'). congruence.
  - split; [discriminate | intros (item' & [=] & _)].
Qed.

Lemma get_live now k minic item :
  items minic !! k = Some item → IsExpired now item = false →
  get now k minic = (Object item, true).
Proof. unfold get. intros -> ->. reflexivity. Qed.

Lemma get_not_live now k minic : ¬ live now k minic → get now k minic = (None, false).
Proof.
  unfold get, live. intros Hn. destruct (items minic !! k) as [item|] eqn:Hk; [|done].
  destruct (IsExpired now item) eqn:He; [done|]. exfalso. eauto.
Qed.

Lemma lookup_set now k v d minic k' :
  items (set now k v d minic) !! k' =
  if decide (k = k')
  then Some {| Object := v;
               Expiration := expiration_of (minic_defaultExpiration minic) now d |}
  else items minic !! k'.
Proof. unfold set. simpl. apply lookup_insert. Qed.

End Expiration.

(** ** Liveness, [Add] and [Replace] *)

Section Liveness.

Context {V : Type}.
Implicit Types (item : Item V) (minic : Minicache V) (v : iface V).

(** C4.  An entry whose [Expiration] is the "never expire" sentinel [0] is
    live at every time.  An entry with any other expiration instant is
    live exactly while [now <= Expiration] and expired exactly when
    [now > Expiration]; and this liveness is what [Get], [Add] and
    [Replace] treat as "found": [Get] reports the entry found iff it is
    live, [Add] fails iff it is live, [Replace] succeeds iff it is live. *)
Theorem IsExpired_liveness item now :
  (Expiration item = 0 → ∀ t, IsExpired t item = false) ∧
  (Expiration item ≠ 0 →
     (IsExpired now item = false ↔ now <= Expiration item) ∧
     (IsExpired now item = true ↔ Expiration item < now)) ∧
  (∀ minic k, items minic !! k = Some item →
     Get now k minic =
       (if IsExpired now item then (None, false) else (Object item, true)) ∧
     (∀ now_set v d,
        (Add now now_set k v d minic).1 =
          (if IsExpired now item then None else Some (Errorf_already_exists k)) ∧
        (Replace now now_set k v d minic).1 =
          (if IsExpired now item then Some (Errorf_does_not_exists k) else None))).
Proof.
  split; [|split].
  - intros E t. by apply IsExpired_never.
  - intros E. rewrite IsExpired_false_iff, IsExpired_true_iff. split; split.
    + intros [?|?]; [contradiction | assumption].
    + auto.
    + intros [_ ?]; assumption.
    + auto.
  - intros minic k Hk. split.
    + unfold Get. rewrite Hk. reflexivity.
    + intros now_set v d. unfold Add, Replace, get. rewrite Hk.
      destruct (IsExpired now item); simpl; split; reflexivity.
Qed.



End Liveness.

(** ** [Set]: how the expiration is resolved *)

Section Resolve.

Context {V : Type}.
Implicit Types (item : Item V) (minic : Minicache V) (v : iface V).



Lemma expiration_of_negative dflt now d : d < 0 → expiration_of dflt now d = 0.
Proof.
  intros Hd. unfold expiration_of, defaultExpiration.
  destruct (Z.eqb_spec d 0) as [E|E]; [lia|].
  destruct (Z.gtb_spec d 0) as [G|G]; [lia | reflexivity].
Qed.



(** C10.  Any strictly negative ttl, not only [NoExpiration], makes [Set]
    and the unlocked [set] (the insertion path of [Add] and [Replace])
    store the entry with the "never" sentinel: the entry is not expired
    and is returned by [Get] at every time, [Add] stores it when the key
    has no live entry, and [Replace] stores it when the key has one. *)
Theorem negative_ttl_never_expires minic now k v d :
  d < 0 →
  let never := {| Object := v; Expiration := 0 |} in
  Set_ now k v d minic = with_items minic (<[k := never]> (items minic)) ∧
  set now k v d minic = with_items minic (<[k := never]> (items minic)) ∧
  (∀ t, IsExpired t never = false ∧ Get t k (Set_ now k v d minic) = (v, true)) ∧
  (∀ now_get, ¬ live now_get k minic →
     Add now_get now k v d minic =
       (None, with_items minic (<[k := never]> (items minic)))) ∧
  (∀ now_get, live now_get k minic →
     Replace now_get now k v d minic =
       (None, with_items minic (<[k := never]> (items minic)))).
Proof.
  intros Hd never.
  assert (Hset : set now k v d minic = with_items minic (<[k := never]> (items minic))).
  { unfold set. rewrite (expiration_of_negative _ _ _ Hd). reflexivity. }
  split; [exact Hset|]. split; [exact Hset|]. split; [|split].
  - intros t. split; [reflexivity|].
    rewrite Set_set, Hset. unfold Get. simpl. rewrite lookup_insert_eq. reflexivity.
  - intros now_get Hn. unfold Add. rewrite (get_not_live _ _ _ Hn). simpl.
    by rewrite Hset.
  - intros now_get (item & Hk & He). unfold Replace.
    rewrite (get_live _ _ _ _ Hk He). simpl. by rewrite Hset.
Qed.

End Resolve.



Lemma negative_ttl_never_expires_witness :
  Set_ 1700000000000000000 "k"%string (Some 7%nat) (-5)
       (NewMiniCache 1800000000000 1000000000).1 =
  with_items (NewMiniCache 1800000000000 1000000000).1
    (<[ "k"%string := {| Object := Some 7%nat; Expiration := 0 |} ]> ∅).
Proof.
  apply (negative_ttl_never_expires (NewMiniCache 1800000000000 1000000000).1
           1700000000000000000 "k"%string (Some 7%nat) (-5)).
  lia.
Defined.

(** ** The sweep *)

Section Sweep.

Context {V : Type}.
Implicit Types (item : Item V) (minic : Minicache V) (v : iface V).
Implicit Types (l : list (string * Item V)).

Lemma Minicache_eq minic1 minic2 :
  minic_defaultExpiration minic1 = minic_defaultExpiration minic2 →
  gcInterval minic1 = gcInterval minic2 →
  (∀ k, items minic1 !! k = items minic2 !! k) →
  minic1 = minic2.
Proof.
  destruct minic1 as [d1 m1 g1], minic2 as [d2 m2 g2]. simpl.
  intros -> -> Hm. f_equal. apply map_eq, Hm.
Qed.

Lemma DeleteExpired_body_config now minic kv :
  minic_defaultExpiration (DeleteExpired_body now minic kv) =
    minic_defaultExpiration minic ∧
  gcInterval (DeleteExpired_body now minic kv) = gcInterval minic.
Proof.
  destruct kv as [k v]. unfold DeleteExpired_body.
  destruct (_ && _); split; reflexivity.
Qed.

Lemma DeleteExpired_range_config now l minic :
  minic_defaultExpiration (DeleteExpired_range now l minic) =
    minic_defaultExpiration minic ∧
  gcInterval (DeleteExpired_range now l minic) = gcInterval minic.
Proof.
  unfold DeleteExpired_range. revert minic.
  induction l as [|kv l IH]; intros minic; simpl; [done|].
  destruct (IH (DeleteExpired_body now minic kv)) as [-> ->].
  apply DeleteExpired_body_config.
Qed.

(** The loop only deletes: a key that is absent stays absent. *)
Lemma DeleteExpired_range_absent now l minic k :
  items minic !! k = None → items (DeleteExpired_range now l minic) !! k = None.
Proof.
  unfold DeleteExpired_range. revert minic.
  induction l as [|[k' v'] l IH]; intros minic Hk; simpl; [done|].
  apply IH. unfold DeleteExpired_body.
  destruct (_ && _); [|done]. simpl.
  destruct (decide (k' = k)) as [->|Hne].
  - apply lookup_delete_eq.
  - by rewrite lookup_delete_ne.
Qed.

Lemma DeleteExpired_range_removed now l minic k item :
  (k, item) ∈ l → sweepable now item = true →
  items (DeleteExpired_range now l minic) !! k = None.
Proof.
  revert minic. induction l as [|[k' v'] l IH]; intros minic Hin Hs.
  - by apply elem_of_nil in Hin.
  - apply elem_of_cons in Hin as [[= <- <-]|Hin].
    + change (DeleteExpired_range now ((k, item) :: l) minic)
        with (DeleteExpired_range now l (DeleteExpired_body now minic (k, item))).
      apply DeleteExpired_range_absent. unfold DeleteExpired_body.
      unfold sweepable in Hs. rewrite Hs. simpl. apply lookup_delete_eq.
    + change (DeleteExpired_range now ((k', v') :: l) minic)
        with (DeleteExpired_range now l (DeleteExpired_body now minic (k', v'))).
      by apply IH.
Qed.

Lemma DeleteExpired_range_kept now l minic k :
  (∀ item, (k, item) ∈ l → sweepable now item = false) →
  items (DeleteExpired_range now l minic) !! k = items minic !! k.
Proof.
  revert minic. induction l as [|[k' v'] l IH]; intros minic Hall; [done|].
  change (DeleteExpired_range now ((k', v') :: l) minic)
    with (DeleteExpired_range now l (DeleteExpired_body now minic (k', v'))).
  rewrite IH.
  - unfold DeleteExpired_body.
    destruct (Expiration v' >? 0) eqn:E1, (now >? Expiration v') eqn:E2;
      simpl; try reflexivity.
    destruct (decide (k' = k)) as [->|Hne]; [|by rewrite lookup_delete_ne].
    specialize (Hall v' ltac:(left)). unfold sweepable in Hall.
    rewrite E1, E2 in Hall. discriminate.
  - intros item Hin. apply Hall. by right.
Qed.

Lemma sweepable_iff now item :
  sweepable now item = true ↔ 0 < Expiration item < now.
Proof.
  unfold sweepable. rewrite andb_true_iff, !Z.gtb_ltb, !Z.ltb_lt. lia.
Qed.

Lemma DeleteExpired_lookup now minic k :
  items (DeleteExpired now minic) !! k =
  match items minic !! k with
  | Some item => if sweepable now item then None else Some item
  | None => None
  end.
Proof.
  unfold DeleteExpired. destruct (items minic !! k) as [item|] eqn:Hk.
  - destruct (sweepable now item) eqn:Hs.
    + apply (DeleteExpired_range_removed now _ minic k item); [|done].
      by apply elem_of_map_to_list.
    + rewrite DeleteExpired_range_kept; [done|].
      intros item' Hin%elem_of_map_to_list. congruence.
  - by apply DeleteExpired_range_absent.
Qed.

(** The order in which [range] yields the entries does not matter. *)
Lemma DeleteExpired_any_order now l minic :
  l ≡ₚ map_to_list (items minic) →
  DeleteExpired_range now l minic = DeleteExpired now minic.
Proof.
  intros Hp. apply Minicache_eq.
  - unfold DeleteExpired.
    destruct (DeleteExpired_range_config now l minic) as [-> _].
    by destruct (DeleteExpired_range_config now (map_to_list (items minic)) minic)
      as [-> _].
  - unfold DeleteExpired.
    destruct (DeleteExpired_range_config now l minic) as [_ ->].
    by destruct (DeleteExpired_range_config now (map_to_list (items minic)) minic)
      as [_ ->].
  - intros k. rewrite DeleteExpired_lookup.
    destruct (items minic !! k) as [item|] eqn:Hk.
    + destruct (sweepable now item) eqn:Hs.
      * apply (DeleteExpired_range_removed now l minic k item); [|done].
        rewrite Hp. by apply elem_of_map_to_list.
      * rewrite DeleteExpired_range_kept; [done|].
        intros item'. rewrite Hp. intros Hin%elem_of_map_to_list. congruence.
    + by apply DeleteExpired_range_absent.
Qed.


End Sweep.


(** The state of that counterexample is reachable through the public
    operations alone: [Set] with the largest ttl stores a negative
    expiration, which [Get] treats as expired and no sweep ever removes. *)
Example overflowed_entry_is_never_swept :
  let minic : Minicache string :=
    Set_ 1700000000000000000 "k" (Some "v"%string) 9223372036854775807
      (NewMiniCache 0 1000000000).1 in
  Get 1700000000000000001 "k" minic = (None, false) ∧
  Count (DeleteExpired 1700000000000000001 minic) = 1%nat.
Proof. cbv zeta. split; vm_compute; reflexivity. Qed.

(** ** [Load] *)

Section Snapshot.

Context {V : Type}.
Implicit Types (item : Item V) (minic : Minicache V) (v : iface V).
Implicit Types (l : list (string * Item V)) (decoded : gmap string (Item V)).

Variable gobDecode : list Byte.byte → string + gmap string (Item V).

Lemma Load_body_config now_at minic kv :
  minic_defaultExpiration (Load_body now_at minic kv) =
    minic_defaultExpiration minic ∧
  gcInterval (Load_body now_at minic kv) = gcInterval minic.
Proof.
  destruct kv as [k v]. unfold Load_body.
  destruct (items minic !! k) as [obj|]; [destruct (IsExpired _ obj)|];
    split; reflexivity.
Qed.

Lemma Load_range_config now_at l minic :
  minic_defaultExpiration (Load_range now_at l minic) =
    minic_defaultExpiration minic ∧
  gcInterval (Load_range now_at l minic) = gcInterval minic.
Proof.
  unfold Load_range. revert minic.
  induction l as [|kv l IH]; intros minic; simpl; [done|].
  destruct (IH (Load_body now_at minic kv)) as [-> ->].
  apply Load_body_config.
Qed.

(** One visit merges the visited key and touches no other. *)
Lemma Load_body_lookup now_at minic k' item' k :
  items (Load_body now_at minic (k', item')) !! k =
  if decide (k' = k) then merged (now_at k) (items minic !! k) (Some item')
  else items minic !! k.
Proof.
  unfold Load_body, merged. destruct (decide (k' = k)) as [->|Hne].
  - destruct (items minic !! k) as [obj|] eqn:Hk.
    + destruct (IsExpired (now_at k) obj); simpl; [apply lookup_insert_eq | done].
    + simpl. apply lookup_insert_eq.
  - destruct (items minic !! k') as [obj|] eqn:Hk'.
    + destruct (IsExpired (now_at k') obj); simpl; [by rewrite lookup_insert_ne | done].
    + simpl. by rewrite lookup_insert_ne.
Qed.

(** The loop over entries with distinct keys (the entries of a map). *)
Lemma Load_range_lookup now_at l minic k :
  NoDup l.*1 →
  items (Load_range now_at l minic) !! k =
  merged (now_at k) (items minic !! k) ((list_to_map l : gmap string (Item V)) !! k).
Proof.
  revert minic. induction l as [|[k' v'] l IH]; intros minic Hnd.
  - reflexivity.
  - rewrite fmap_cons in Hnd. apply NoDup_cons in Hnd as [Hk' Hnd]. simpl in Hk'.
    change (Load_range now_at ((k', v') :: l) minic)
      with (Load_range now_at l (Load_body now_at minic (k', v'))).
    rewrite (IH _ Hnd), Load_body_lookup. simpl.
    destruct (decide (k' = k)) as [->|Hne].
    + rewrite lookup_insert_eq.
      by rewrite (not_elem_of_list_to_map_1 (M := gmap string) l k Hk').
    + by rewrite lookup_insert_ne.
Qed.

Lemma Load_merge_lookup now_at decoded minic k :
  items (Load_range now_at (map_to_list decoded) minic) !! k =
  merged (now_at k) (items minic !! k) (decoded !! k).
Proof.
  rewrite Load_range_lookup by apply NoDup_fst_map_to_list.
  by rewrite list_to_map_to_list.
Qed.


(** C1.  When the stream decodes to the mapping [decoded], [Load] returns
    [nil] and merges key by key.  A decoded key that is absent from the
    cache, or present with an entry that is expired when the key is
    visited, is bound to the decoded entry.  A decoded key that is present
    with a live entry keeps that entry: the decoded one is discarded and
    [Get], at any later time, answers as it did before [Load], returning
    the old value while the old entry lives.  Keys that are not in the
    decoded mapping keep what they had. *)
Theorem Load_merges_key_by_key now_at r decoded minic :
  gobDecode r = inr decoded →
  ∃ minic',
    Load gobDecode now_at r minic = (None, minic') ∧
    minic_defaultExpiration minic' = minic_defaultExpiration minic ∧
    gcInterval minic' = gcInterval minic ∧
    ∀ k,
      (decoded !! k = None → items minic' !! k = items minic !! k) ∧
      (∀ item, decoded !! k = Some item →
         (items minic !! k = None → items minic' !! k = Some item) ∧
         (∀ obj, items minic !! k = Some obj →
            (IsExpired (now_at k) obj = true → items minic' !! k = Some item) ∧
            (IsExpired (now_at k) obj = false →
               items minic' !! k = Some obj ∧
               (∀ t, Get t k minic' = Get t k minic) ∧
               (∀ t, IsExpired t obj = false →
                  Get t k minic' = (Object obj, true))))).
Proof.
  intros Hdec. exists (Load_range now_at (map_to_list decoded) minic).
  unfold Load. rewrite Hdec. split; [reflexivity|].
  destruct (Load_range_config now_at (map_to_list decoded) minic) as [Hd Hg].
  split; [exact Hd|]. split; [exact Hg|].
  intros k. rewrite Load_merge_lookup. split.
  - intros ->. reflexivity.
  - intros item ->. unfold merged. split.
    + intros ->. reflexivity.
    + intros obj Hobj. rewrite Hobj. split.
      * intros ->. reflexivity.
      * intros He. rewrite He.
        assert (Hk : items (Load_range now_at (map_to_list decoded) minic) !! k
                     = Some obj).
        { rewrite Load_merge_lookup. unfold merged.
          destruct (decoded !! k); by rewrite Hobj, ?He. }
        split; [reflexivity|]. split.
        -- intros t. unfold Get. by rewrite Hk, Hobj.
        -- intros t Ht. unfold Get. by rewrite Hk, Ht.
Qed.

(** C7.  When decoding the stream fails, [Load] returns the decoder's error
    and the cache exactly as it was. *)
Theorem Load_decode_error now_at r err minic :
  gobDecode r = inl err →
  Load gobDecode now_at r minic = (Some err, minic).
Proof. intros Hdec. unfold Load. rewrite Hdec. reflexivity. Qed.

End Snapshot.

(** A snapshot holding ["K"] with value ["B"] is loaded into a cache where
    ["K"] is live with value ["A"]: [Get] still returns ["A"]. *)
Lemma Load_merges_key_by_key_witness :
  let gobDecode (r : list Byte.byte) : string + gmap string (Item string) :=
    match r with
    | [] => inl "EOF"%string
    | _ => inr {[ "K"%string := {| Object := Some "B"%string; Expiration := 0 |} ]}
    end in
  let minic := Set_ 100 "K" (Some "A"%string) 50 (NewMiniCache 0 1000000000).1 in
  ∃ minic',
    Load gobDecode (λ _, 120) [Byte.x01] minic = (None, minic') ∧
    Get 130 "K" minic' = (Some "A"%string, true).
Proof.
  cbv zeta.
  destruct (Load_merges_key_by_key
    (λ r : list Byte.byte,
       match r with
       | [] => inl "EOF"%string
       | _ => inr {[ "K"%string := {| Object := Some "B"%string; Expiration := 0 |} ]}
       end)
    (λ _, 120) [Byte.x01]
    {[ "K"%string := {| Object := Some "B"%string; Expiration := 0 |} ]}
    (Set_ 100 "K" (Some "A"%string) 50 (NewMiniCache 0 1000000000).1)
    eq_refl) as (minic' & HLoad & _ & _ & Hkeys).
  exists minic'. split; [exact HLoad|].
  destruct (Hkeys "K"%string) as [_ Hin].
  destruct (Hin {| Object := Some "B"%string; Expiration := 0 |} eq_refl)
    as [_ Hpresent].
  destruct (Hpresent {| Object := Some "A"%string; Expiration := 150 |} eq_refl)
    as [_ Hlive].
  destruct (Hlive eq_refl) as (_ & _ & HGet).
  exact (HGet 130 eq_refl).
Defined.

(** The empty stream does not decode; the cache is returned untouched. *)
Lemma Load_decode_error_witness :
  let gobDecode (r : list Byte.byte) : string + gmap string (Item string) :=
    match r with
    | [] => inl "EOF"%string
    | _ => inr ∅
    end in
  let minic := Set_ 100 "K" (Some "A"%string) 50 (NewMiniCache 0 1000000000).1 in
  Load gobDecode (λ _, 120) [] minic = (Some "EOF"%string, minic).
Proof.
  cbv zeta.
  apply (Load_decode_error
    (λ r : list Byte.byte,
       match r with [] => inl "EOF"%string | _ => inr ∅ end)
    (λ _, 120) [] "EOF"%string).
  reflexivity.
Defined.

(** ** Construction and the background loop *)

Section Construction.

Context {V : Type}.
Implicit Types (minic : Minicache V).

Lemma gcLoop_enter_positive minic :
  0 < gcInterval minic →
  gcLoop_enter minic = looping {| time.period := gcInterval minic |}.
Proof.
  intros Hpos. unfold gcLoop_enter, time.NewTicker.
  destruct (Z.ltb_spec 0 (gcInterval minic)); [reflexivity | lia].
Qed.

Lemma gcLoop_enter_nonpositive minic :
  gcInterval minic <= 0 →
  gcLoop_enter minic = panicked "non-positive interval for NewTicker".
Proof.
  intros Hle. unfold gcLoop_enter, time.NewTicker.
  destruct (Z.ltb_spec 0 (gcInterval minic)); [lia | reflexivity].
Qed.

(** Once the loop has returned or panicked no event sweeps the cache. *)
Lemma gcLoop_select_not_looping ev g minic :
  (∀ ticker, g ≠ looping ticker) → gcLoop_select ev (g, minic) = (g, minic).
Proof. intros Hg. destruct g; [by destruct (Hg ticker) | done | done]. Qed.

(** C8, as amended.  The constructor has no "disabled" mode for the
    reaper: it returns an empty cache with the two settings stored and
    always starts [gcLoop] with the given interval.  With a positive
    interval the loop is entered, every tick runs one sweep and the stop
    signal ends the loop; with a zero or negative interval the loop never
    starts, because creating its ticker panics. *)
Theorem NewMiniCache_starts_gcLoop (defaultTTL reaperInterval : time.Duration) :
  (NewMiniCache (V := V) defaultTTL reaperInterval).1 =
    {| minic_defaultExpiration := defaultTTL;
       items := ∅;
       gcInterval := reaperInterval |} ∧
  (0 < reaperInterval →
     (NewMiniCache (V := V) defaultTTL reaperInterval).2 =
       looping {| time.period := reaperInterval |} ∧
     ∀ minic now,
       gcLoop_select (tick now) (looping {| time.period := reaperInterval |}, minic) =
         (looping {| time.period := reaperInterval |}, DeleteExpired now minic) ∧
       gcLoop_select stop (looping {| time.period := reaperInterval |}, minic) =
         (returned, minic)) ∧
  (reaperInterval <= 0 →
     (NewMiniCache (V := V) defaultTTL reaperInterval).2 =
       panicked "non-positive interval for NewTicker").
Proof.
  split; [reflexivity|]. split.
  - intros Hpos. split; [|intros minic now; split; reflexivity].
    unfold NewMiniCache. simpl. by rewrite gcLoop_enter_positive.
  - intros Hle. unfold NewMiniCache. simpl. by rewrite gcLoop_enter_nonpositive.
Qed.

End Construction.

(** C8, as stated, fails: with a reaper interval of zero (and likewise of
    [-1]) the goroutine started by the constructor panics. *)
Lemma NewMiniCache_nonpositive_interval_panics :
  (NewMiniCache (V := string) 1800000000000 0).2 =
    panicked "non-positive interval for NewTicker" ∧
  (NewMiniCache (V := string) 1800000000000 (-1)).2 =
    panicked "non-positive interval for NewTicker".
Proof. split; reflexivity. Qed.

Lemma NewMiniCache_starts_gcLoop_witness :
  (NewMiniCache (V := string) 1800000000000 3000000000).2 =
    looping {| time.period := 3000000000 |}.
Proof.
  apply (proj1 (proj2 (NewMiniCache_starts_gcLoop
                         (V := string) 1800000000000 3000000000))).
  lia.
Defined.

(** ** The lock held around each access to the map *)

Section Locking.

Import rwmutex.

Lemma writes_exclusively_visits (writes : list bool) :
  writes_exclusively {| writer := true; readers := O |}
    (flat_map visit writes ++ [Unlock]) = true.
Proof.
  induction writes as [|b writes IH]; [reflexivity|].
  destruct b; simpl; exact IH.
Qed.

(** Every method but [Flush] writes the map under the write lock only. *)
Lemma siblings_write_exclusively (c : call) :
  c ≠ Flush → writes_exclusively unlocked (skeleton c) = true.
Proof.
  intros Hc. destruct c as [| |[]|[]| | | | |[merges|]|deletes];
    try reflexivity; try (by destruct Hc);
    apply writes_exclusively_visits.
Qed.

(** C9.  [Flush] assigns to [minic.items] while it holds only the read
    lock: run alone it does not write exclusively, and run beside a [Get]
    both callers hold the read lock together, the [Get] about to read the
    map that the [Flush] is about to replace. *)
Theorem Flush_writes_under_read_lock :
  mutates Flush = true ∧
  writes_exclusively unlocked (skeleton Flush) = false ∧
  ∃ p, run [0; 1]%nat (start [Get; Flush]) = Some p ∧
       mu p = {| writer := false; readers := 2 |} ∧
       race p.
Proof.
  split; [reflexivity|]. split; [reflexivity|].
  eexists. split; [reflexivity|]. split; [reflexivity|].
  exists 1%nat, 0%nat, read_items. repeat split. lia.
Qed.

(** *** Callers other than [Flush] never race *)

Lemma count_insert (f : list action → bool) ts i old new :
  ts !! i = Some old →
  (count f (<[i := new]> ts) + (if f old then 1 else 0) =
   count f ts + (if f new then 1 else 0))%nat.
Proof.
  unfold count. revert i. induction ts as [|t ts IH]; intros i Hi; [done|].
  destruct i as [|i]; simpl in *.
  - injection Hi as ->. destruct (f old), (f new); simpl; lia.
  - specialize (IH i Hi). destruct (f t); simpl; lia.
Qed.

Lemma count_positive (f : list action → bool) ts i t :
  ts !! i = Some t → f t = true → (0 < count f ts)%nat.
Proof.
  unfold count. revert i. induction ts as [|t' ts IH]; intros i Hi Hf; [done|].
  destruct i as [|i]; simpl in *.
  - injection Hi as ->. rewrite Hf. simpl. lia.
  - specialize (IH i Hi Hf). destruct (f t'); simpl; lia.
Qed.

Lemma count_unique (f : list action → bool) ts i j ti tj :
  (count f ts <= 1)%nat →
  ts !! i = Some ti → ts !! j = Some tj → f ti = true → f tj = true → i = j.
Proof.
  unfold count. revert i j. induction ts as [|t ts IH]; intros i j Hc Hi Hj Hfi Hfj;
    [done|].
  destruct i as [|i], j as [|j]; simpl in *; [done| | |].
  - injection Hi as ->. rewrite Hfi in Hc. simpl in Hc.
    pose proof (count_positive f ts j tj Hj Hfj) as Hp. unfold count in Hp. lia.
  - injection Hj as ->. rewrite Hfj in Hc. simpl in Hc.
    pose proof (count_positive f ts i ti Hi Hfi) as Hp. unfold count in Hp. lia.
  - f_equal. apply IH; try done. destruct (f t); simpl in Hc; lia.
Qed.

Lemma read_section_not_write acts : read_section acts = true → write_section acts = false.
Proof.
  induction acts as [|a acts IH]; [done|].
  destruct a; simpl; try done.
Qed.

Lemma write_section_phase acts : write_section acts = true → phase_of acts = writing.
Proof.
  destruct acts as [|a acts]; [done|].
  destruct a; simpl; try done.
  - destruct acts; [done | discriminate].
  - intros ->. done.
  - intros ->. done.
Qed.

Lemma read_section_phase acts : read_section acts = true → phase_of acts = reading.
Proof.
  intros Hr. pose proof (read_section_not_write acts Hr) as Hw.
  destruct acts as [|a acts]; [done|].
  destruct a; try done; unfold phase_of; by rewrite Hw, Hr.
Qed.

Lemma write_section_visits writes : write_section (flat_map visit writes ++ [Unlock]) = true.
Proof.
  induction writes as [|b writes IH]; [reflexivity|].
  destruct b; simpl in *.
  - destruct (flat_map visit writes ++ [Unlock]); [done | exact IH].
  - destruct (flat_map visit writes ++ [Unlock]); [done | exact IH].
Qed.

Lemma skeleton_idle c : c ≠ Flush → phase_of (skeleton c) = idle.
Proof.
  intros Hc. destruct c as [| |[]|[]| | | | |[merges|]|deletes];
    try reflexivity; try (by destruct Hc);
    simpl; by rewrite write_section_visits.
Qed.

Lemma start_consistent calls : Forall (λ c, c ≠ Flush) calls → consistent (start calls).
Proof.
  intros Hcalls. unfold consistent, start, count. simpl.
  induction Hcalls as [|c calls Hc _ IH]; simpl.
  - repeat split; constructor.
  - destruct IH as (Hph & Hw & Hr & _).
    pose proof (skeleton_idle c Hc) as Hidle.
    unfold is_writing, is_reading. rewrite !Hidle.
    repeat split; try done.
    constructor; [by rewrite Hidle | done].
Qed.

(** How one action moves its caller from phase to phase. *)
Lemma phase_step a rest :
  phase_of (a :: rest) ≠ undisciplined →
  match a with
  | Lock => phase_of (a :: rest) = idle ∧ phase_of rest = writing
  | RLock => phase_of (a :: rest) = idle ∧ phase_of rest = reading
  | Unlock => phase_of (a :: rest) = writing ∧ rest = []
  | RUnlock => phase_of (a :: rest) = reading ∧ rest = []
  | read_items =>
      (phase_of (a :: rest) = writing ∧ phase_of rest = writing) ∨
      (phase_of (a :: rest) = reading ∧ phase_of rest = reading)
  | write_items => phase_of (a :: rest) = writing ∧ phase_of rest = writing
  end.
Proof.
  intros Hph. destruct a.
  - destruct (write_section rest) eqn:Hw.
    + split; [simpl; by rewrite Hw | by apply write_section_phase].
    + exfalso. apply Hph. simpl. by rewrite Hw.
  - destruct rest; [done|]. by destruct Hph.
  - destruct (read_section rest) eqn:Hr.
    + split; [simpl; by rewrite Hr | by apply read_section_phase].
    + exfalso. apply Hph. simpl. by rewrite Hr.
  - destruct rest; [done|]. by destruct Hph.
  - destruct (write_section rest) eqn:Hw.
    + left. split; [|by apply write_section_phase].
      unfold phase_of. simpl. by rewrite Hw.
    + destruct (read_section rest) eqn:Hr.
      * right. split; [|by apply read_section_phase].
        unfold phase_of. simpl. by rewrite Hw, Hr.
      * exfalso. apply Hph. unfold phase_of. simpl. by rewrite Hw, Hr.
  - destruct (write_section rest) eqn:Hw.
    + split; [|by apply write_section_phase].
      unfold phase_of. simpl. by rewrite Hw.
    + exfalso. apply Hph. unfold phase_of. simpl. by rewrite Hw.
Qed.

Lemma phase_flags acts ph :
  phase_of acts = ph →
  is_writing acts = match ph with writing => true | _ => false end ∧
  is_reading acts = match ph with reading => true | _ => false end.
Proof. intros <-. split; reflexivity. Qed.

Lemma step_consistent i p p' : consistent p → step i p = Some p' → consistent p'.
Proof.
  intros (Hph & Hw & Hr & Hwr). unfold step.
  destruct (threads p !! i) as [[|a rest]|] eqn:Hi; try discriminate.
  destruct (exec a (mu p)) as [mu'|] eqn:He; [|discriminate].
  intros [= <-]. unfold consistent. simpl.
  assert (Hold : phase_of (a :: rest) ≠ undisciplined).
  { by apply (Forall_lookup_1 _ _ _ _ Hph Hi). }
  pose proof (phase_step a rest Hold) as Hstep.
  assert (∃ po pn, phase_of (a :: rest) = po ∧ phase_of rest = pn ∧
                   pn ≠ undisciplined ∧
                   match a with
                   | Lock | RLock => po = idle
                   | Unlock | write_items => po = writing
                   | RUnlock => po = reading
                   | read_items => po = pn
                   end ∧
                   match a with
                   | Lock | write_items => pn = writing
                   | RLock => pn = reading
                   | Unlock | RUnlock => pn = idle
                   | read_items => pn = writing ∨ pn = reading
                   end) as (po & pn & Ho & Hn & Hnew & Hpo & Hpn).
  { destruct a.
    - destruct Hstep as [Ho Hn]. exists idle, writing. by rewrite Ho, Hn.
    - destruct Hstep as [Ho ->]. exists writing, idle. by rewrite Ho.
    - destruct Hstep as [Ho Hn]. exists idle, reading. by rewrite Ho, Hn.
    - destruct Hstep as [Ho ->]. exists reading, idle. by rewrite Ho.
    - destruct Hstep as [[Ho Hn]|[Ho Hn]].
      + exists writing, writing. rewrite Ho, Hn. repeat split; auto.
      + exists reading, reading. rewrite Ho, Hn. repeat split; auto.
    - destruct Hstep as [Ho Hn]. exists writing, writing. by rewrite Ho, Hn. }
  pose proof (count_insert is_writing (threads p) i (a :: rest) rest Hi) as Cw.
  pose proof (count_insert is_reading (threads p) i (a :: rest) rest Hi) as Cr.
  pose proof (count_positive is_writing (threads p) i (a :: rest) Hi) as Pw.
  pose proof (count_positive is_reading (threads p) i (a :: rest) Hi) as Pr.
  destruct (phase_flags _ _ Ho) as [Fw Fr]. destruct (phase_flags _ _ Hn) as [Gw Gr].
  rewrite Fw, Gw in Cw. rewrite Fr, Gr in Cr. rewrite Fw in Pw. rewrite Fr in Pr.
  assert (Hrest : phase_of rest ≠ undisciplined) by (by rewrite Hn).
  clear Fw Fr Gw Gr Ho Hn Hstep Hold.
  split; [by apply Forall_insert|].
  destruct (mu p) as [w r]. simpl in Hw, Hr, Hwr, He.
  destruct a; simpl in He.
  - subst po pn. destruct w; [done|]. destruct r; [|done]. injection He as <-.
    simpl. repeat split; lia.
  - subst po pn. destruct w; [|specialize (Pw eq_refl); lia]. injection He as <-.
    simpl. repeat split; first [lia | done].
  - subst po pn. destruct w; [done|]. injection He as <-.
    simpl. repeat split; first [lia | done].
  - subst po pn. destruct r as [|r]; [specialize (Pr eq_refl); lia|].
    injection He as <-. simpl.
    destruct w; [specialize (Hwr eq_refl); done|].
    repeat split; first [lia | done].
  - injection He as <-. subst po. simpl in Hwr |- *.
    destruct Hpn as [->| ->]; repeat split; first [lia | done].
  - injection He as <-. subst po pn. simpl in Hwr |- *.
    repeat split; first [lia | done].
Qed.

Lemma run_consistent schedule p p' :
  consistent p → run schedule p = Some p' → consistent p'.
Proof.
  revert p. induction schedule as [|i schedule IH]; intros p Hp; simpl.
  - by intros [= <-].
  - destruct (step i p) as [p1|] eqn:Hs; [|discriminate].
    apply IH. by apply (step_consistent i p).
Qed.

Lemma next_phase i p a :
  consistent p → next i p = Some a → accesses a = true →
  ∃ acts, threads p !! i = Some acts ∧
          (is_writing acts = true ∨ (is_reading acts = true ∧ a = read_items)).
Proof.
  intros (Hph & _) Hn Ha. unfold next in Hn.
  destruct (threads p !! i) as [[|a' rest]|] eqn:Hi; try discriminate.
  simpl in Hn. injection Hn as ->. exists (a :: rest). split; [done|].
  assert (Hold : phase_of (a :: rest) ≠ undisciplined).
  { by apply (Forall_lookup_1 _ _ _ _ Hph Hi). }
  pose proof (phase_step a rest Hold) as Hstep.
  unfold is_writing, is_reading.
  destruct a; try discriminate.
  - destruct Hstep as [[-> _]|[-> _]]; auto.
  - destruct Hstep as [-> _]. auto.
Qed.

(** While the mutex and the callers are consistent, a caller about to write
    the map holds the write lock, and no other caller is about to touch
    the map. *)
Lemma consistent_no_race p :
  consistent p →
  (∀ i, next i p = Some write_items → writer (mu p) = true) ∧ ¬ race p.
Proof.
  intros Hp. pose proof Hp as (Hph & Hw & Hr & Hwr). split.
  - intros i Hn.
    destruct (next_phase i p write_items Hp Hn eq_refl) as (acts & Hi & [Hwi|[_ ?]]);
      [|done].
    pose proof (count_positive is_writing _ i acts Hi Hwi) as Hpos.
    destruct (writer (mu p)); [done | lia].
  - intros (i & j & a & Hij & Hni & Hnj & Ha).
    destruct (next_phase i p write_items Hp Hni eq_refl) as (ti & Hi & [Hwi|[_ ?]]);
      [|done].
    pose proof (count_positive is_writing _ i ti Hi Hwi) as Hpos.
    destruct (next_phase j p a Hp Hnj Ha) as (tj & Hj & [Hwj|[Hrj _]]).
    + apply Hij. apply (count_unique is_writing (threads p) i j ti tj); try done.
      rewrite Hw. destruct (writer (mu p)); lia.
    + pose proof (count_positive is_reading _ j tj Hj Hrj) as Hposr.
      destruct (writer (mu p)); [|lia]. specialize (Hwr eq_refl). lia.
Qed.

(** Whatever the schedule, concurrent calls of every method but [Flush]
    write the map only under the write lock and never race. *)
Theorem no_race_without_Flush calls schedule p :
  Forall (λ c, c ≠ Flush) calls →
  run schedule (start calls) = Some p →
  (∀ i, next i p = Some write_items → writer (mu p) = true) ∧ ¬ race p.
Proof.
  intros Hcalls Hrun. apply consistent_no_race.
  eapply run_consistent; [|exact Hrun]. by apply start_consistent.
Qed.

End Locking.

(** ** The operations on concrete caches *)

Section Scenarios.

Import scenario.

(** [Set("x", 1, 2s)]; [Get] finds it at once and no longer after 3s;
    [Count] still sees the expired entry until a sweep runs. *)
Example scenario_set_get_sweep :
  let minic := Set_ t0 "x" (Some 1%nat) (2 * second) fresh in
  Get t0 "x" minic = (Some 1%nat, true) ∧
  Get (t0 + 2 * second) "x" minic = (Some 1%nat, true) ∧
  Get (t0 + 3 * second) "x" minic = (None, false) ∧
  Count minic = 1%nat ∧
  Count (DeleteExpired (t0 + 3 * second) minic) = 0%nat.
Proof. cbv zeta. repeat split; vm_compute; reflexivity. Qed.

(** [Add] on a live key fails and changes nothing; on the same key once
    expired, though not yet swept, it stores the new entry. *)
Example scenario_add :
  let minic := Set_ t0 "x" (Some 1%nat) (2 * second) fresh in
  Add (t0 + second) (t0 + second) "x" (Some 2%nat) 0 minic =
    (Some "Item x already exists"%string, minic) ∧
  ∃ minic',
    Add (t0 + 3 * second) (t0 + 3 * second) "x" (Some 2%nat) 0 minic =
      (None, minic') ∧
    items minic' !! "x"%string =
      Some {| Object := Some 2%nat;
              Expiration := t0 + 3 * second + 1800 * second |}.
Proof.
  cbv zeta. split; [vm_compute; reflexivity|].
  eexists. split; [vm_compute; reflexivity|]. vm_compute. reflexivity.
Qed.

(** [Replace] fails on an absent key and on an expired one, and replaces
    value and expiration of a live one. *)
Example scenario_replace :
  let minic := Set_ t0 "x" (Some 1%nat) (2 * second) fresh in
  Replace t0 t0 "y" (Some 2%nat) second minic =
    (Some "Item y does not exists"%string, minic) ∧
  Replace (t0 + 3 * second) (t0 + 3 * second) "x" (Some 2%nat) second minic =
    (Some "Item x does not exists"%string, minic) ∧
  ∃ minic',
    Replace (t0 + second) (t0 + second) "x" (Some 2%nat) NoExpiration minic =
      (None, minic') ∧
    items minic' !! "x"%string = Some {| Object := Some 2%nat; Expiration := 0 |}.
Proof.
  cbv zeta. split; [vm_compute; reflexivity|]. split; [vm_compute; reflexivity|].
  eexists. split; [vm_compute; reflexivity|]. vm_compute. reflexivity.
Qed.

(** The loop sweeps on every tick until the stop signal, and not after. *)
Example scenario_gcLoop :
  let minic := Set_ t0 "x" (Some 1%nat) (2 * second) fresh in
  (gcLoop [tick (t0 + second); tick (t0 + 4 * second); stop] minic).1 = returned ∧
  Count (gcLoop [tick (t0 + second)] minic).2 = 1%nat ∧
  Count (gcLoop [tick (t0 + second); tick (t0 + 4 * second)] minic).2 = 0%nat ∧
  Count (gcLoop [stop; tick (t0 + 4 * second)] minic).2 = 1%nat.
Proof. cbv zeta. repeat split; vm_compute; reflexivity. Qed.

End Scenarios.

(** An entry that expires at [t0 + 2s] is live at that very instant. *)
Lemma IsExpired_liveness_witness :
  IsExpired (scenario.t0 + 2 * scenario.second)
    {| Object := Some 1%nat;
       Expiration := scenario.t0 + 2 * scenario.second |} = false.
Proof.
  apply (proj1 (proj2 (IsExpired_liveness
           {| Object := Some 1%nat;
              Expiration := scenario.t0 + 2 * scenario.second |}
           (scenario.t0 + 2 * scenario.second)))).
  - vm_compute. discriminate.
  - simpl. lia.
Defined.


(** ** Reading back what was written *)

Section ReadWrite.

Context {V : Type}.
Implicit Types (item : Item V) (minic : Minicache V) (v : iface V).

Lemma Get_lookup t k minic :
  Get t k minic =
  match items minic !! k with
  | Some item => if IsExpired t item then (None, false) else (Object item, true)
  | None => (None, false)
  end.
Proof. reflexivity. Qed.

Lemma Get_absent t k minic : items minic !! k = None → Get t k minic = (None, false).
Proof. unfold Get. intros ->. reflexivity. Qed.

(** Expiration is final: an entry that is expired at one reading of the
    clock is expired at every later one, so a key that [Get] reports
    missing stays missing until it is written again. *)
Theorem Get_expired_stays_expired t t' k minic :
  t <= t' →
  (Get t k minic).2 = false → (Get t' k minic).2 = false.
Proof.
  intros Hle. rewrite !Get_lookup. destruct (items minic !! k) as [item|]; [|done].
  destruct (IsExpired t item) eqn:He; [|discriminate]. intros _.
  apply IsExpired_true_iff in He as [Hne Hlt].
  assert (Ht' : IsExpired t' item = true) by (apply IsExpired_true_iff; lia).
  by rewrite Ht'.
Qed.

(** [Set] then [Get].  With a clock at or after the epoch and a resolved
    ttl [d'] (the ttl given, or the default ttl when that is zero) that is
    positive and ends within the [int64] range, the key is found, with the
    value set, up to and including the instant [now + d'], and not found
    after it; with a resolved ttl that is zero or negative it is found at
    every time.  No other key is affected. *)
Theorem Set_then_Get minic now k v d t :
  let d' := if d =? defaultExpiration then minic_defaultExpiration minic else d in
  (0 < d' → 0 <= now → now + d' <= int64.max →
     Get t k (Set_ now k v d minic) =
       if t <=? now + d' then (v, true) else (None, false)) ∧
  (d' <= 0 → Get t k (Set_ now k v d minic) = (v, true)) ∧
  (∀ k', k' ≠ k → Get t k' (Set_ now k v d minic) = Get t k' minic).
Proof.
  intros d'. split; [|split].
  - intros Hpos Hnow Hmax. rewrite Get_lookup. unfold Set_. simpl.
    rewrite lookup_insert_eq. unfold expiration_of. fold d'.
    destruct (Z.gtb_spec d' 0) as [_|?]; [|lia].
    unfold time.Add_UnixNano. rewrite int64_wrap_in_range
      by (unfold int64.in_range, int64.min; lia).
    unfold IsExpired. simpl.
    destruct (Z.eqb_spec (now + d') 0) as [?|_]; [lia|].
    rewrite Z.gtb_ltb. destruct (Z.leb_spec t (now + d')), (Z.ltb_spec (now + d') t);
      try reflexivity; lia.
  - intros Hle. rewrite Get_lookup. unfold Set_. simpl. rewrite lookup_insert_eq.
    unfold expiration_of. fold d'. destruct (Z.gtb_spec d' 0) as [?|_]; [lia|].
    reflexivity.
  - intros k' Hne. rewrite !Get_lookup. unfold Set_. simpl.
    by rewrite lookup_insert_ne.
Qed.

End ReadWrite.

(** ** [Delete], [Count] and [Flush] *)

Section Housekeeping.

Context {V : Type}.
Implicit Types (item : Item V) (minic : Minicache V) (v : iface V).

Lemma not_live_absent now k minic : items minic !! k = None → ¬ live now k minic.
Proof. intros Hk (item & Hk' & _). congruence. Qed.

Lemma Add_cases minic now_get now_set k v d :
  (live now_get k minic ∧
   Add now_get now_set k v d minic = (Some (Errorf_already_exists k), minic)) ∨
  (¬ live now_get k minic ∧
   Add now_get now_set k v d minic = (None, set now_set k v d minic)).
Proof.
  destruct (live_dec now_get k minic) as [Hl|Hn]; [left | right];
    (split; [assumption|]); unfold Add.
  - destruct Hl as (item & Hk & He). by rewrite (get_live _ _ _ _ Hk He).
  - by rewrite (get_not_live _ _ _ Hn).
Qed.

Lemma Replace_cases minic now_get now_set k v d :
  (live now_get k minic ∧
   Replace now_get now_set k v d minic = (None, set now_set k v d minic)) ∨
  (¬ live now_get k minic ∧
   Replace now_get now_set k v d minic = (Some (Errorf_does_not_exists k), minic)).
Proof.
  destruct (live_dec now_get k minic) as [Hl|Hn]; [left | right];
    (split; [assumption|]); unfold Replace.
  - destruct Hl as (item & Hk & He). by rewrite (get_live _ _ _ _ Hk He).
  - by rewrite (get_not_live _ _ _ Hn).
Qed.

(** [Delete] removes the key whatever it held: afterwards [Get] does not
    find it at any time, [Add] of it succeeds and [Replace] of it fails;
    every other key keeps its entry; the count drops by one when the key
    was stored (live or expired); and deleting a key that is not stored
    leaves the cache exactly as it was. *)
Theorem Delete_removes_key minic k :
  (∀ t, Get t k (Delete k minic) = (None, false)) ∧
  (∀ now_get now_set v d,
     (Add now_get now_set k v d (Delete k minic)).1 = None ∧
     (Replace now_get now_set k v d (Delete k minic)).1 =
       Some (Errorf_does_not_exists k)) ∧
  (∀ k', k' ≠ k → items (Delete k minic) !! k' = items minic !! k') ∧
  Count (Delete k minic) =
    match items minic !! k with
    | Some _ => Nat.pred (Count minic)
    | None => Count minic
    end ∧
  (items minic !! k = None → Delete k minic = minic).
Proof.
  assert (Hk : items (Delete k minic) !! k = None) by apply lookup_delete_eq.
  split; [|split; [|split; [|split]]].
  - intros t. by apply Get_absent.
  - intros now_get now_set v d. unfold Add, Replace.
    rewrite (get_not_live _ _ _ (not_live_absent now_get _ _ Hk)). done.
  - intros k' Hne. unfold Delete, delete. simpl. by rewrite lookup_delete_ne.
  - unfold Count, Delete, delete. simpl. rewrite map_size_delete.
    by destruct (items minic !! k).
  - intros Habs. unfold Delete, delete. rewrite delete_id by done.
    by destruct minic.
Qed.

(** [Count] counts stored entries, expired or not.  [Set] and [Add] raise
    it by one exactly when the key was not stored at all (an [Add] that
    overwrites an expired entry, or fails, leaves it as it was);
    [Replace] never changes it. *)
Theorem Count_after_write minic now_get now k v d :
  let grown :=
    match items minic !! k with
    | Some _ => Count minic
    | None => S (Count minic)
    end in
  Count (Set_ now k v d minic) = grown ∧
  Count (Add now_get now k v d minic).2 = grown ∧
  Count (Replace now_get now k v d minic).2 = Count minic.
Proof.
  intros grown.
  assert (Hset : Count (set now k v d minic) = grown).
  { unfold Count, set. simpl. rewrite map_size_insert. subst grown. unfold Count.
    by destruct (items minic !! k). }
  split; [exact Hset|]. split.
  - destruct (Add_cases minic now_get now k v d)
      as [[(item & Hk & _) ->]|[_ ->]]; simpl.
    + subst grown. by rewrite Hk.
    + exact Hset.
  - destruct (Replace_cases minic now_get now k v d)
      as [[(item & Hk & _) ->]|[_ ->]]; simpl; [|done].
    rewrite Hset. subst grown. by rewrite Hk.
Qed.

End Housekeeping.

Section Emptying.

Context {V : Type}.
Implicit Types (item : Item V) (minic : Minicache V) (v : iface V).

(** [Flush] empties the cache and keeps its settings: afterwards the count
    is zero, [Get] finds no key at any time, every [Add] succeeds, every
    [Replace] fails, and a sweep has nothing to remove. *)
Theorem Flush_resets minic :
  Count (Flush minic) = O ∧
  minic_defaultExpiration (Flush minic) = minic_defaultExpiration minic ∧
  gcInterval (Flush minic) = gcInterval minic ∧
  (∀ t k, Get t k (Flush minic) = (None, false)) ∧
  (∀ now_get now_set k v d,
     (Add now_get now_set k v d (Flush minic)).1 = None ∧
     (Replace now_get now_set k v d (Flush minic)).1 =
       Some (Errorf_does_not_exists k)) ∧
  (∀ now, DeleteExpired now (Flush minic) = Flush minic).
Proof.
  assert (Hk : ∀ k, items (Flush minic) !! k = None) by (intros k; apply lookup_empty).
  split; [apply map_size_empty|]. split; [done|]. split; [done|].
  split; [|split].
  - intros t k. by apply Get_absent.
  - intros now_get now_set k v d. unfold Add, Replace.
    rewrite (get_not_live _ _ _ (not_live_absent now_get _ _ (Hk k))). done.
  - intros now. unfold DeleteExpired, Flush. simpl.
    by rewrite map_to_list_empty.
Qed.

Lemma DeleteExpired_config now minic :
  minic_defaultExpiration (DeleteExpired now minic) = minic_defaultExpiration minic ∧
  gcInterval (DeleteExpired now minic) = gcInterval minic.
Proof. apply DeleteExpired_range_config. Qed.

Lemma sweepable_expired now t item :
  now <= t → sweepable now item = true → IsExpired t item = true.
Proof.
  intros Hle Hs%sweepable_iff. apply IsExpired_true_iff. lia.
Qed.

Lemma DeleteExpired_Get now t k minic :
  now <= t → Get t k (DeleteExpired now minic) = Get t k minic.
Proof.
  intros Hle. rewrite !Get_lookup, DeleteExpired_lookup.
  destruct (items minic !! k) as [item|]; [|done].
  destruct (sweepable now item) eqn:Hs; [|done].
  by rewrite (sweepable_expired now t item Hle Hs).
Qed.

(** A sweep is invisible to the callers that come after it: at any clock
    reading from the sweep's [now] on, [Get] returns what it would have
    returned without the sweep, and [Add] and [Replace] succeed or fail
    as they would have. *)
Theorem DeleteExpired_invisible now t k minic :
  now <= t →
  Get t k (DeleteExpired now minic) = Get t k minic ∧
  (∀ now_set v d,
     (Add t now_set k v d (DeleteExpired now minic)).1 =
       (Add t now_set k v d minic).1 ∧
     (Replace t now_set k v d (DeleteExpired now minic)).1 =
       (Replace t now_set k v d minic).1).
Proof.
  intros Hle. pose proof (DeleteExpired_Get now t k minic Hle) as HG.
  split; [exact HG|]. intros now_set v d.
  assert (Hg : get t k (DeleteExpired now minic) = get t k minic) by exact HG.
  unfold Add, Replace. rewrite Hg.
  destruct (get t k minic) as [o []]; split; reflexivity.
Qed.

Lemma sweepable_max n1 n2 item :
  sweepable (Z.max n1 n2) item = sweepable n1 item || sweepable n2 item.
Proof.
  unfold sweepable. destruct (Z.gtb_spec (Expiration item) 0); simpl; [|done].
  rewrite !Z.gtb_ltb.
  destruct (Z.ltb_spec (Expiration item) (Z.max n1 n2)),
           (Z.ltb_spec (Expiration item) n1),
           (Z.ltb_spec (Expiration item) n2); simpl; try reflexivity; lia.
Qed.

(** Two sweeps amount to one sweep at the later of their two clock
    readings, in whichever order they run; so sweeping again with the same
    reading changes nothing. *)
Theorem DeleteExpired_twice n1 n2 minic :
  DeleteExpired n2 (DeleteExpired n1 minic) = DeleteExpired (Z.max n1 n2) minic ∧
  DeleteExpired n1 (DeleteExpired n1 minic) = DeleteExpired n1 minic.
Proof.
  assert (H : ∀ a b,
    DeleteExpired b (DeleteExpired a minic) = DeleteExpired (Z.max a b) minic).
  { intros a b. apply Minicache_eq.
    - destruct (DeleteExpired_config b (DeleteExpired a minic)) as [-> _].
      destruct (DeleteExpired_config a minic) as [-> _].
      by destruct (DeleteExpired_config (Z.max a b) minic) as [-> _].
    - destruct (DeleteExpired_config b (DeleteExpired a minic)) as [_ ->].
      destruct (DeleteExpired_config a minic) as [_ ->].
      by destruct (DeleteExpired_config (Z.max a b) minic) as [_ ->].
    - intros k. rewrite !DeleteExpired_lookup.
      destruct (items minic !! k) as [item|]; [|done].
      rewrite sweepable_max.
      destruct (sweepable a item); simpl; [done|].
      by destruct (sweepable b item). }
  split; [apply H|]. rewrite H. by rewrite Z.max_id.
Qed.

(** A sweep only removes: what it leaves is part of what was stored, the
    count does not grow, and it stays the same only if nothing was
    removed. *)
Theorem DeleteExpired_only_removes now minic :
  items (DeleteExpired now minic) ⊆ items minic ∧
  (Count (DeleteExpired now minic) <= Count minic)%nat ∧
  (Count (DeleteExpired now minic) = Count minic → DeleteExpired now minic = minic).
Proof.
  assert (Hsub : items (DeleteExpired now minic) ⊆ items minic).
  { apply map_subseteq_spec. intros k item. rewrite DeleteExpired_lookup.
    destruct (items minic !! k) as [item'|]; [|done].
    by destruct (sweepable now item'). }
  split; [exact Hsub|]. split; [by apply map_subseteq_size|].
  intros Hsize. apply Minicache_eq; try apply DeleteExpired_config.
  intros k. f_equal. apply map_subseteq_size_eq; [done|]. unfold Count in Hsize. lia.
Qed.

End Emptying.

(** ** The background loop over time *)

Section Reaper.

Context {V : Type}.
Implicit Types (item : Item V) (minic : Minicache V) (v : iface V).
Implicit Types (g : goroutine) (evs : list gc_event).

Lemma gcLoop_select_Get ev t k g minic :
  match ev with tick now => now <= t | stop => True end →
  Get t k (gcLoop_select ev (g, minic)).2 = Get t k minic.
Proof.
  intros Hev. destruct g as [ticker| |msg]; [|done|done].
  destruct ev as [now|]; simpl; [|done]. by apply DeleteExpired_Get.
Qed.

Lemma gcLoop_select_config ev g minic :
  minic_defaultExpiration (gcLoop_select ev (g, minic)).2 =
    minic_defaultExpiration minic ∧
  gcInterval (gcLoop_select ev (g, minic)).2 = gcInterval minic ∧
  items (gcLoop_select ev (g, minic)).2 ⊆ items minic.
Proof.
  destruct g as [ticker| |msg]; [|done|done].
  destruct ev as [now|]; simpl; [|done].
  destruct (DeleteExpired_config now minic) as [-> ->].
  split; [done|]. split; [done|].
  apply map_subseteq_spec. intros k item. rewrite DeleteExpired_lookup.
  destruct (items minic !! k) as [item'|]; [|done].
  by destruct (sweepable now item').
Qed.

Lemma gcLoop_fold_quiet evs t k g minic :
  Forall (λ ev, match ev with tick now => now <= t | stop => True end) evs →
  let st := foldl (λ st ev, gcLoop_select ev st) (g, minic) evs in
  Get t k st.2 = Get t k minic ∧
  minic_defaultExpiration st.2 = minic_defaultExpiration minic ∧
  gcInterval st.2 = gcInterval minic ∧
  items st.2 ⊆ items minic.
Proof.
  intros Hevs. revert g minic.
  induction Hevs as [|ev evs Hev _ IH]; intros g minic; cbv zeta; cbn [foldl];
    [done|].
  destruct (gcLoop_select ev (g, minic)) as [g1 minic1] eqn:Hsel.
  destruct (IH g1 minic1) as (HG & Hd & Hi & Hsub).
  pose proof (gcLoop_select_Get ev t k g minic Hev) as HG1.
  pose proof (gcLoop_select_config ev g minic) as (Hd1 & Hi1 & Hsub1).
  rewrite Hsel in HG1, Hd1, Hi1, Hsub1. simpl in HG1, Hd1, Hi1, Hsub1.
  rewrite HG, Hd, Hi, HG1, Hd1, Hi1. repeat split. by etrans.
Qed.

(** Whatever ticks and stop signals the loop has received, it has only
    removed entries and kept the settings, and a caller whose clock
    reading is not before any of the ticks gets from [Get] what it would
    get had the loop never run. *)
Theorem gcLoop_invisible evs t k minic :
  Forall (λ ev, match ev with tick now => now <= t | stop => True end) evs →
  Get t k (gcLoop evs minic).2 = Get t k minic ∧
  minic_defaultExpiration (gcLoop evs minic).2 = minic_defaultExpiration minic ∧
  gcInterval (gcLoop evs minic).2 = gcInterval minic ∧
  items (gcLoop evs minic).2 ⊆ items minic.
Proof. intros Hevs. by apply gcLoop_fold_quiet. Qed.

Lemma gcLoop_fold_not_looping evs g minic :
  (∀ ticker, g ≠ looping ticker) →
  foldl (λ st ev, gcLoop_select ev st) (g, minic) evs = (g, minic).
Proof.
  intros Hg. induction evs as [|ev evs IH]; cbn [foldl]; [done|].
  by rewrite gcLoop_select_not_looping.
Qed.

(** [Stopgc] is single-shot.  When it completes, the loop has returned
    without touching the cache, no later tick sweeps, and a second
    [Stopgc] finds no receiver and blocks. *)
Theorem Stopgc_single_shot (st st' : goroutine * Minicache V) :
  Stopgc st = Some st' →
  st'.1 = returned ∧ st'.2 = st.2 ∧
  (∀ evs, foldl (λ s ev, gcLoop_select ev s) st' evs = st') ∧
  Stopgc st' = None.
Proof.
  destruct st as [g minic]. unfold Stopgc. simpl.
  destruct g as [ticker| |msg]; try discriminate. intros [= <-].
  repeat split. intros evs. by apply gcLoop_fold_not_looping.
Qed.

End Reaper.

(** ** Snapshots *)

Section RoundTrip.

Context {V : Type}.
Implicit Types (item : Item V) (minic : Minicache V) (v : iface V).
Implicit Types (decoded : gmap string (Item V)).

Variable gobRegister_panics : list (iface V) → bool.
Variable gobEncode : gmap string (Item V) → encode_outcome.
Variable gobDecode : list Byte.byte → string + gmap string (Item V).

Lemma merged_self now (o : option (Item V)) : merged now o o = o.
Proof. destruct o as [item|]; [|done]. simpl. by destruct (IsExpired now item). Qed.

Lemma merged_None now (o : option (Item V)) : merged now None o = o.
Proof. by destruct o. Qed.

Lemma Load_range_own now_at minic :
  Load_range now_at (map_to_list (items minic)) minic = minic.
Proof.
  apply Minicache_eq; try apply Load_range_config.
  intros k. by rewrite Load_merge_lookup, merged_self.
Qed.

Lemma Load_range_Flush now_at decoded minic :
  Load_range now_at (map_to_list decoded) (Flush minic) = with_items minic decoded.
Proof.
  apply Minicache_eq.
  - by destruct (Load_range_config now_at (map_to_list decoded) (Flush minic)) as [-> _].
  - by destruct (Load_range_config now_at (map_to_list decoded) (Flush minic)) as [_ ->].
  - intros k. rewrite Load_merge_lookup. simpl. by rewrite lookup_empty, merged_None.
Qed.

(** [Load] into a cache that holds nothing (a new one, or one just
    flushed) stores exactly the decoded mapping, expired entries included
    and whatever the clock says. *)
Theorem Load_into_flushed now_at r decoded minic :
  gobDecode r = inr decoded →
  Load gobDecode now_at r (Flush minic) = (None, with_items minic decoded).
Proof. intros Hdec. unfold Load. by rewrite Hdec, Load_range_Flush. Qed.

(** Round trip.  When [Save] returns [nil], and the decoder reads back
    from the bytes written the map the encoder was given, then [Load] of
    those bytes into the same cache changes nothing, and [Load] of them
    after a [Flush] restores the cache exactly: every entry, expired or
    not, with its value and expiration, at whatever time it is loaded. *)
Theorem Save_Load_round_trip now_at written minic :
  Save gobRegister_panics gobEncode minic = (None, written) →
  (gobEncode (items minic) = encoded written None →
   gobDecode written = inr (items minic)) →
  Load gobDecode now_at written minic = (None, minic) ∧
  Load gobDecode now_at written (Flush minic) = (None, minic).
Proof.
  unfold Save. intros HSave Hcodec.
  destruct (gobRegister_panics _); [discriminate|].
  destruct (gobEncode (items minic)) as [written' err|written'] eqn:Henc;
    [|discriminate].
  injection HSave as -> ->. specialize (Hcodec eq_refl).
  unfold Load. rewrite Hcodec. split.
  - by rewrite Load_range_own.
  - rewrite Load_range_Flush. by destruct minic.
Qed.

(** [Load] never removes a key: afterwards the stored keys are those
    stored before together with those of the snapshot, and the count has
    not dropped. *)
Theorem Load_keeps_keys now_at r decoded minic :
  gobDecode r = inr decoded →
  dom (items (Load gobDecode now_at r minic).2) = dom (items minic) ∪ dom decoded ∧
  (Count minic <= Count (Load gobDecode now_at r minic).2)%nat.
Proof.
  intros Hdec. unfold Load. rewrite Hdec. simpl.
  assert (Hdom : dom (items (Load_range now_at (map_to_list decoded) minic)) =
                 dom (items minic) ∪ dom decoded).
  { apply set_eq. intros k.
    rewrite elem_of_union, !elem_of_dom, Load_merge_lookup. unfold merged.
    destruct (decoded !! k) as [item|], (items minic !! k) as [obj|];
      try destruct (IsExpired (now_at k) obj);
      split; intros H; try (destruct H as [H|H]); eauto;
      try (by destruct H). }
  split; [exact Hdom|].
  unfold Count. rewrite <- (size_dom (items minic)).
  rewrite <- (size_dom (items (Load_range now_at (map_to_list decoded) minic))).
  apply subseteq_size. rewrite Hdom. apply union_subseteq_l.
Qed.

End RoundTrip.

(** ** One writer after another *)

Section Sequences.

Context {V : Type}.
Implicit Types (item : Item V) (minic : Minicache V) (v : iface V).



End Sequences.

(** ** The lock on every path *)

Section Paths.

Import rwmutex.

Lemma run_visits (writes : list bool) :
  let acts := flat_map visit writes ++ [Unlock] in
  run (replicate (length acts) 0%nat)
      {| mu := {| writer := true; readers := O |}; threads := [acts] |} =
  Some {| mu := unlocked; threads := [[]] |}.
Proof.
  induction writes as [|b writes IH]; [reflexivity|].
  destruct b; exact IH.
Qed.

(** Every call, on every path through its method, releases the lock it
    took: run alone from an unlocked mutex it goes through all its actions
    without blocking and leaves the mutex unlocked.  This holds for
    [Flush] too, and for the early returns of [Add] and [Replace]. *)
Theorem lock_released_on_every_path (c : call) :
  run (replicate (length (skeleton c)) 0%nat) (start [c]) =
  Some {| mu := unlocked; threads := [[]] |}.
Proof.
  destruct c as [| |[]|[]| | | | |[merges|]|deletes]; try reflexivity.
  - exact (run_visits merges).
  - exact (run_visits deletes).
Qed.








End Paths.

(** ** The properties above on the cache of the example *)

Section Instances.

Import scenario.

Lemma Get_expired_stays_expired_witness :
  (Get (t0 + 4 * second) "x" with_x).2 = false.
Proof.
  apply (Get_expired_stays_expired (t0 + 3 * second) (t0 + 4 * second) "x" with_x).
  - vm_compute. discriminate.
  - vm_compute. reflexivity.
Defined.

Lemma Set_then_Get_witness :
  Get (t0 + 2 * second) "x" with_x = (Some 1%nat, true).
Proof.
  apply (proj1 (Set_then_Get fresh t0 "x" (Some 1%nat) (2 * second)
                  (t0 + 2 * second))).
  - vm_compute. reflexivity.
  - vm_compute. discriminate.
  - vm_compute. discriminate.
Defined.

Lemma DeleteExpired_invisible_witness :
  Get (t0 + 4 * second) "x" (DeleteExpired (t0 + 3 * second) with_x) =
  Get (t0 + 4 * second) "x" with_x.
Proof.
  apply (DeleteExpired_invisible (t0 + 3 * second) (t0 + 4 * second) "x" with_x).
  vm_compute. discriminate.
Defined.

Lemma DeleteExpired_any_order_witness :
  DeleteExpired_range (t0 + 3 * second)
    (reverse (map_to_list (items (Set_ t0 "y" (Some 2%nat) NoExpiration with_x))))
    (Set_ t0 "y" (Some 2%nat) NoExpiration with_x) =
  DeleteExpired (t0 + 3 * second) (Set_ t0 "y" (Some 2%nat) NoExpiration with_x).
Proof.
  apply (DeleteExpired_any_order (t0 + 3 * second)
           (reverse (map_to_list (items (Set_ t0 "y" (Some 2%nat) NoExpiration with_x))))
           (Set_ t0 "y" (Some 2%nat) NoExpiration with_x)).
  apply reverse_Permutation.
Defined.

Lemma gcLoop_invisible_witness :
  Get (t0 + 4 * second) "x"
    (gcLoop [tick (t0 + second); tick (t0 + 4 * second); stop] with_x).2 =
  Get (t0 + 4 * second) "x" with_x.
Proof.
  apply (gcLoop_invisible [tick (t0 + second); tick (t0 + 4 * second); stop]
           (t0 + 4 * second) "x" with_x).
  repeat constructor; vm_compute; discriminate.
Defined.

Lemma Stopgc_single_shot_witness :
  Stopgc (returned, (gcLoop [tick (t0 + second)] with_x).2) = None.
Proof.
  apply (Stopgc_single_shot (gcLoop [tick (t0 + second)] with_x)
           (returned, (gcLoop [tick (t0 + second)] with_x).2)).
  vm_compute. reflexivity.
Defined.


Lemma Load_into_flushed_witness :
  Load decoder (λ _, t0) [Byte.x01] (Flush with_x) =
  (None, with_items with_x snapshot).
Proof.
  apply (Load_into_flushed decoder (λ _, t0) [Byte.x01] snapshot with_x).
  reflexivity.
Defined.

Lemma Load_keeps_keys_witness :
  dom (items (Load decoder (λ _, t0) [Byte.x01] with_x).2) =
  dom (items with_x) ∪ dom snapshot.
Proof.
  apply (Load_keeps_keys decoder (λ _, t0) [Byte.x01] snapshot with_x).
  reflexivity.
Defined.


(** The cache [with_x] saved by an encoder that writes one byte, and read
    back by a decoder that returns its entries for that byte. *)
Lemma Save_Load_round_trip_witness :
  Load (λ r : list Byte.byte,
          match r with
          | [] => inl "EOF"%string
          | _ => inr (items with_x)
          end)
       (λ _, t0 + 3 * second) [Byte.x01] (Flush with_x) = (None, with_x).
Proof.
  apply (Save_Load_round_trip
           (λ _, false) (λ _, encoded [Byte.x01] None)
           (λ r : list Byte.byte,
              match r with
              | [] => inl "EOF"%string
              | _ => inr (items with_x)
              end)
           (λ _, t0 + 3 * second) [Byte.x01] with_x).
  - reflexivity.
  - intros _. reflexivity.
Defined.

Lemma no_race_without_Flush_witness : ¬ rwmutex.race three_callers.
Proof.
  apply (no_race_without_Flush
           [rwmutex.Set_; rwmutex.Add false; rwmutex.Get] [0%nat] three_callers).
  - repeat constructor; discriminate.
  - reflexivity.
Defined.


End Instances.
